(** * Extended Euclidean algorithm of [egcd/egcd.py]

    A shallow embedding of the function [egcd] and of the Python integer
    operators it relies on, followed by the properties of the function. *)

From Equations Require Import Equations.
From Equations.Prop Require Import Logic.
From Stdlib Require Import ZArith Lia Wellfounded.

Local Open Scope Z_scope.

(** ** Python integer operators *)

Module Py.

(** [b // n] on Python integers: floor division, [ZeroDivisionError]
    (here [None]) on a zero divisor. *)
Definition floordiv (a d : Z) : option Z :=
  if d =? 0 then None else Some (a / d).

(** [b % n] on Python integers: the remainder of floor division, with the
    sign of the divisor; [ZeroDivisionError] on a zero divisor. *)
Definition mod_ (a d : Z) : option Z :=
  if d =? 0 then None else Some (a mod d).

Definition bind {A B : Type} (m : option A) (k : A -> option B) : option B :=
  match m with
  | Some a => k a
  | None => None
  end.

End Py.

Notation "x <- m ;; k" := (Py.bind m (fun x => k))
  (at level 61, m at next level, right associativity).

(** ** The local variables of [egcd] *)

Record frame : Type := Frame {
  b : Z; n : Z;
  x0 : Z; x1 : Z;
  y0 : Z; y1 : Z
}.

(** Line 47: [(x0, x1, y0, y1) = (1, 0, 0, 1)], with the arguments bound. *)
Definition init (B N : Z) : frame :=
  {| b := B; n := N; x0 := 1; x1 := 0; y0 := 0; y1 := 1 |}.

(** Line 48: the loop guard [n != 0]. *)
Definition guard (s : frame) : bool := negb (n s =? 0).

(** Lines 49-51: one pass through the loop body.  The right-hand side of
    line 49 is evaluated left to right before anything is assigned. *)
Definition body (s : frame) : option frame :=
  q <- Py.floordiv (b s) (n s) ;;
  r <- Py.mod_ (b s) (n s) ;;
  Some {| b := n s; n := r;
          x0 := x1 s; x1 := x0 s - q * x1 s;
          y0 := y1 s; y1 := y0 s - q * y1 s |}.

(** Line 52: [return (b, x0, y0)]. *)
Definition ret (s : frame) : Z * Z * Z := (b s, x0 s, y0 s).

(** The order along which the loop descends: [n] shrinks in absolute
    value. *)
Definition abs_lt (x y : Z) : Prop := Z.abs x < Z.abs y.

Lemma abs_lt_wf : well_founded abs_lt.
Proof.
  assert (H : forall k x, Z.abs x < k -> Acc abs_lt x).
  { intros k. destruct (Z.le_gt_cases 0 k) as [Hk | Hk].
    - pattern k. apply natlike_ind; [| | exact Hk].
      + intros x Hx. lia.
      + intros j _ IH x Hx. constructor. intros y Hy.
        apply IH. unfold abs_lt in Hy. lia.
    - intros x Hx. lia. }
  intros x. apply (H (Z.abs x + 1)). lia.
Qed.

(** The accessibility proof is guarded by a tower of constructors, so that
    evaluation of the loop never inspects [abs_lt_wf]. *)
Definition abs_lt_guarded : well_founded abs_lt :=
  Acc_intro_generator 64 abs_lt_wf.

#[local] Opaque abs_lt_guarded.

#[local] Instance abs_lt_WellFounded : WellFounded abs_lt := abs_lt_guarded.

Definition shrinks (s' s : frame) : Prop := abs_lt (n s') (n s).

Lemma body_some (s : frame) :
  guard s = true ->
  body s = Some {| b := n s; n := b s mod n s;
                   x0 := x1 s; x1 := x0 s - (b s / n s) * x1 s;
                   y0 := y1 s; y1 := y0 s - (b s / n s) * y1 s |}.
Proof.
  unfold guard, body, Py.floordiv, Py.mod_.
  destruct (n s =? 0); [discriminate | reflexivity].
Qed.

Lemma body_decreases (s s' : frame) :
  guard s = true -> body s = Some s' -> shrinks s' s.
Proof.
  intros Hg Hb. rewrite (body_some s Hg) in Hb.
  injection Hb as <-. unfold shrinks, abs_lt; simpl.
  unfold guard in Hg. destruct (Z.eqb_spec (n s) 0) as [|Hn]; [discriminate|].
  pose proof (Z.mod_bound_or (b s) (n s) Hn). lia.
Qed.

(** Lines 48-51: the [while] loop. *)
Equations? while (s : frame) : option frame by wf (n s) abs_lt :=
  while s with inspect (guard s) := {
    | exist _ false _ => Some s
    | exist _ true Hg with inspect (body s) := {
        | exist _ (Some s') Hb => while s'
        | exist _ None _ => None } }.
Proof. exact (body_decreases s s' Hg Hb). Qed.

(** Lines 47-52: the function. *)
Definition egcd (B N : Z) : option (Z * Z * Z) :=
  s <- while (init B N) ;; Some (ret s).

(** ** Operational reading of the loop

    [reaches s k t]: from [s] at the loop head, [k] passes through the body,
    each taken with a true guard, lead to [t] at the loop head. *)
Inductive reaches (s : frame) : nat -> frame -> Prop :=
| reaches_here : reaches s 0 s
| reaches_pass (k : nat) (t t' : frame) :
    reaches s k t -> guard t = true -> body t = Some t' ->
    reaches s (S k) t'.

(** The loop leaves [t] after [k] passes. *)
Definition exits (s : frame) (k : nat) (t : frame) : Prop :=
  reaches s k t /\ guard t = false.

(** ** The iterated remainder process of the specification

    Repeated application of [b, n = n, b mod n] until [n == 0]; the result
    is the final [b]. *)
Equations? remainder_process (b' n' : Z) : Z by wf n' abs_lt :=
  remainder_process b' n' with inspect (n' =? 0) := {
    | exist _ true _ => b'
    | exist _ false Hn => remainder_process n' (b' mod n') }.
Proof.
  unfold abs_lt.
  destruct (Z.eqb_spec n' 0) as [|Hz]; [discriminate|].
  pose proof (Z.mod_bound_or b' n' Hz). lia.
Qed.

(** ** Invariants of the loop *)

(** Both remainders are combinations of the arguments [B] and [N]. *)
Definition bezout (B N : Z) (s : frame) : Prop :=
  x0 s * B + y0 s * N = b s /\ x1 s * B + y1 s * N = n s.

(** The pair of remainders keeps the greatest common divisor of the
    arguments. *)
Definition same_gcd (B N : Z) (s : frame) : Prop :=
  Z.gcd (b s) (n s) = Z.gcd B N.

(** On arguments that are not negative, no remainder is. *)
Definition nonneg (s : frame) : Prop := 0 <= b s /\ 0 <= n s.

(** After the first pass, [b] is not zero and both remainders carry the sign
    of the argument [N]. *)
Definition signed (B N : Z) (s : frame) : Prop :=
  s = init B N \/
  (b s <> 0 /\ Z.sgn (b s) = Z.sgn N /\ (n s = 0 \/ Z.sgn (n s) = Z.sgn N)).

(** The pair of remainders keeps the value of the remainder process. *)
Definition same_process (B N : Z) (s : frame) : Prop :=
  remainder_process (b s) (n s) = remainder_process B N.

(** The coefficient pairs have determinant 1 or -1. *)
Definition unimodular (s : frame) : Prop :=
  x0 s * y1 s - x1 s * y0 s = 1 \/ x0 s * y1 s - x1 s * y0 s = -1.

(** After the first pass the remainders are in order: [n] is nearer to zero
    than [b], on the same side. *)
Definition ordered (s : frame) : Prop :=
  0 <= n s < b s \/ b s < n s <= 0.

(** A coefficient pair [(u0, u1)] alternates in sign and, weighted by the
    remainders, carries the total [T]. *)
Definition carried (T u0 u1 : Z) (s : frame) : Prop :=
  u0 * u1 <= 0 /\ Z.abs u0 * Z.abs (n s) + Z.abs u1 * Z.abs (b s) = T.

(** What bounds the coefficients, from the first pass on.  The [x] pair
    carries [|N|].  The [y] pair carries [|B|], except right after the first
    pass when its quotient [B / N] is negative. *)
Definition bounded (B N : Z) (s : frame) : Prop :=
  s = init B N \/
  (ordered s /\
   (carried (Z.abs N) (x0 s) (x1 s) s /\ Z.abs (x0 s) <= Z.abs (x1 s)) /\
   ((carried (Z.abs B) (y0 s) (y1 s) s /\
     (Z.abs (y0 s) <= Z.abs (y1 s) \/ n s <> 0 \/ B = 0)) \/
    (B / N < 0 /\ b s = N /\ n s = B mod N /\
     y0 s = 1 /\ y1 s = - (B / N)))).

(** ** Transformations of a frame

    [recombine p q r t s] replaces the coefficient columns [x] and [y] of [s]
    by [p*x + r*y] and [q*x + t*y]; the remainders are kept. *)
Definition recombine (p q r t : Z) (s : frame) : frame :=
  {| b := b s; n := n s;
     x0 := x0 s * p + y0 s * r; x1 := x1 s * p + y1 s * r;
     y0 := x0 s * q + y0 s * t; y1 := x1 s * q + y1 s * t |}.

(** [scale c s] multiplies both remainders of [s] by [c]; the coefficients
    are kept. *)
Definition scale (c : Z) (s : frame) : frame :=
  {| b := c * b s; n := c * n s;
     x0 := x0 s; x1 := x1 s; y0 := y0 s; y1 := y1 s |}.

(** * Properties *)

(** ** Unfolding the two loops *)

Lemma while_eq (s : frame) :
  while s = if guard s then (s' <- body s ;; while s') else Some s.
Proof.
  funelim (while s).
  - rewrite e. reflexivity.
  - rewrite Hg, Hb. reflexivity.
  - rewrite Hg, e. reflexivity.
Qed.

Lemma remainder_process_eq (u v : Z) :
  remainder_process u v = if v =? 0 then u else remainder_process v (u mod v).
Proof.
  funelim (remainder_process u v).
  - rewrite e. reflexivity.
  - rewrite Hn. reflexivity.
Qed.

Lemma guard_true (s : frame) : guard s = true <-> n s <> 0.
Proof.
  unfold guard. destruct (Z.eqb_spec (n s) 0); simpl; split; congruence.
Qed.

Lemma guard_false (s : frame) : guard s = false <-> n s = 0.
Proof.
  unfold guard. destruct (Z.eqb_spec (n s) 0); simpl; split; congruence.
Qed.

Lemma shrinks_wf : well_founded shrinks.
Proof. exact (wf_inverse_image frame Z abs_lt n abs_lt_wf). Qed.

(** ** Passes through the body *)

Lemma reaches_front (s s' t : frame) (k : nat) :
  guard s = true -> body s = Some s' -> reaches s' k t -> reaches s (S k) t.
Proof.
  intros Hg Hb Hr. induction Hr as [| k t t' _ IH Hg' Hb'].
  - apply reaches_pass with (t := s); [constructor | assumption | assumption].
  - apply reaches_pass with (t := t); assumption.
Qed.

Lemma reaches_functional (s t1 t2 : frame) (k : nat) :
  reaches s k t1 -> reaches s k t2 -> t1 = t2.
Proof.
  intros H1. revert t2.
  induction H1 as [| k t t' _ IH Hg Hb]; intros t2 H2.
  - inversion H2. reflexivity.
  - inversion H2 as [| k' u u' Hu Hgu Hbu]; subst.
    apply IH in Hu. subst u. congruence.
Qed.

Lemma reaches_earlier (s t : frame) (k j : nat) :
  reaches s k t -> (j < k)%nat ->
  exists m, reaches s j m /\ guard m = true.
Proof.
  intros Hr. induction Hr as [| k t t' Hr IH Hg Hb]; intros Hj.
  - lia.
  - destruct (Nat.eq_dec j k) as [-> | Hne].
    + exists t. split; assumption.
    + apply IH. lia.
Qed.

Lemma exits_unique (s t1 t2 : frame) (k1 k2 : nat) :
  exits s k1 t1 -> exits s k2 t2 -> k1 = k2 /\ t1 = t2.
Proof.
  intros [H1 G1] [H2 G2].
  assert (Hk : k1 = k2).
  { destruct (Nat.lt_total k1 k2) as [Hlt | [Heq | Hgt]]; [| exact Heq |].
    - destruct (reaches_earlier _ _ _ _ H2 Hlt) as [m [Hm Gm]].
      rewrite (reaches_functional _ _ _ _ Hm H1) in Gm. congruence.
    - destruct (reaches_earlier _ _ _ _ H1 Hgt) as [m [Hm Gm]].
      rewrite (reaches_functional _ _ _ _ Hm H2) in Gm. congruence. }
  split; [exact Hk |]. subst k2. exact (reaches_functional _ _ _ _ H1 H2).
Qed.

(** ** The rule of the loop

    A property of the frame that every pass through the body preserves
    holds when the loop is left, and the loop is left: after at most
    [|n|] passes, without error. *)
Section Rule.

Variable P : frame -> Prop.
Hypothesis P_body :
  forall s s', P s -> guard s = true -> body s = Some s' -> P s'.

Lemma while_rule (s : frame) :
  P s ->
  exists k t, exits s k t /\ while s = Some t /\ P t /\
              Z.of_nat k <= Z.abs (n s).
Proof.
  induction s as [s IH] using (well_founded_induction shrinks_wf).
  intros HP. rewrite while_eq.
  destruct (guard s) eqn:Hg.
  - pose proof (body_some s Hg) as Hb.
    pose proof (body_decreases s _ Hg Hb) as Hd.
    rewrite Hb. simpl.
    destruct (IH _ Hd (P_body _ _ HP Hg Hb)) as (k & t & [Hr Ht] & Hw & HPt & Hk).
    exists (S k), t. repeat split; try assumption.
    + exact (reaches_front _ _ _ _ Hg Hb Hr).
    + unfold shrinks, abs_lt in Hd. lia.
  - exists 0%nat, s. repeat split; try assumption.
    + constructor.
    + simpl. lia.
Qed.

(** The same rule, read on the function. *)
Lemma egcd_rule (B N : Z) :
  P (init B N) ->
  exists k t, exits (init B N) k t /\
              egcd B N = Some (b t, x0 t, y0 t) /\ P t /\ n t = 0.
Proof.
  intros HP.
  destruct (while_rule _ HP) as (k & t & Hx & Hw & HPt & _).
  exists k, t. repeat split; try assumption; try apply Hx.
  - unfold egcd. rewrite Hw. reflexivity.
  - apply guard_false, Hx.
Qed.

End Rule.

(** ** The invariants are kept *)

Lemma bezout_init (B N : Z) : bezout B N (init B N).
Proof. unfold bezout, init; cbn [b n x0 x1 y0 y1]. lia. Qed.

Lemma bezout_body (B N : Z) (s s' : frame) :
  bezout B N s -> guard s = true -> body s = Some s' -> bezout B N s'.
Proof.
  intros [H0 H1] Hg Hb. rewrite (body_some s Hg) in Hb. injection Hb as <-.
  apply guard_true in Hg. unfold bezout; cbn [b n x0 x1 y0 y1].
  split; [exact H1 |].
  pose proof (Z.div_mod (b s) (n s) Hg) as Hdm. nia.
Qed.

Lemma same_gcd_body (B N : Z) (s s' : frame) :
  same_gcd B N s -> guard s = true -> body s = Some s' -> same_gcd B N s'.
Proof.
  unfold same_gcd. intros H Hg Hb.
  rewrite (body_some s Hg) in Hb. injection Hb as <-. simpl.
  apply guard_true in Hg.
  rewrite Z.gcd_comm, (Z.gcd_mod _ _ Hg), Z.gcd_comm. exact H.
Qed.

Lemma nonneg_body (s s' : frame) :
  nonneg s -> guard s = true -> body s = Some s' -> nonneg s'.
Proof.
  intros [H0 H1] Hg Hb. rewrite (body_some s Hg) in Hb. injection Hb as <-.
  apply guard_true in Hg. unfold nonneg; simpl.
  pose proof (Z.mod_pos_bound (b s) (n s)). lia.
Qed.

Lemma mod_sign (a d : Z) : d <> 0 -> a mod d = 0 \/ Z.sgn (a mod d) = Z.sgn d.
Proof. intros Hd. pose proof (Z.mod_bound_or a d Hd). lia. Qed.

Lemma signed_body (B N : Z) (s s' : frame) :
  signed B N s -> guard s = true -> body s = Some s' -> signed B N s'.
Proof.
  intros H Hg Hb. rewrite (body_some s Hg) in Hb. injection Hb as <-.
  apply guard_true in Hg. right; simpl.
  pose proof (mod_sign (b s) (n s) Hg) as Hm.
  destruct H as [-> | (_ & _ & [Hz | Hs])]; simpl in *.
  - repeat split; try assumption.
  - contradiction.
  - rewrite <- Hs. repeat split; try assumption.
Qed.

Lemma same_process_body (B N : Z) (s s' : frame) :
  same_process B N s -> guard s = true -> body s = Some s' ->
  same_process B N s'.
Proof.
  unfold same_process. intros H Hg Hb.
  rewrite (body_some s Hg) in Hb. injection Hb as <-. simpl.
  rewrite <- H, (remainder_process_eq (b s) (n s)).
  apply guard_true in Hg. apply Z.eqb_neq in Hg. rewrite Hg. reflexivity.
Qed.

(** * The claims *)

(** C1. For all integers [B] and [N], [egcd B N] returns a triple
    [(g, a, m)] with [g = a*B + m*N]. *)
Theorem egcd_identity (B N : Z) :
  exists g a m, egcd B N = Some (g, a, m) /\ g = a * B + m * N.
Proof.
  destruct (egcd_rule (bezout B N) (bezout_body B N) B N (bezout_init B N))
    as (k & t & _ & He & [H0 _] & _).
  exists (b t), (x0 t), (y0 t). split; [exact He | symmetry; exact H0].
Qed.

(** C3. For all integers [B] and [N], the first component returned by
    [egcd B N] is the value of the iterated remainder process
    [b, n = n, b mod n] run from [(B, N)] until [n = 0]. *)
Theorem egcd_refines_remainder_process (B N : Z) :
  exists g a m, egcd B N = Some (g, a, m) /\ g = remainder_process B N.
Proof.
  destruct (egcd_rule (same_process B N) (same_process_body B N) B N eq_refl)
    as (k & t & _ & He & Hp & Hn).
  exists (b t), (x0 t), (y0 t). split; [exact He |].
  unfold same_process in Hp. rewrite <- Hp, remainder_process_eq, Hn.
  reflexivity.
Qed.

(** C6. [egcd 0 0 = (0, 1, 0)], and [egcd B 0 = (B, 1, 0)] for every
    integer [B]: the guard is false on entry, the loop is left after no pass
    through its body, and the initial coefficients are returned. *)
Theorem egcd_zero_cases :
  egcd 0 0 = Some (0, 1, 0) /\
  forall B : Z,
    egcd B 0 = Some (B, 1, 0) /\
    guard (init B 0) = false /\
    exits (init B 0) 0 (init B 0) /\
    while (init B 0) = Some (init B 0).
Proof.
  assert (H : forall B, while (init B 0) = Some (init B 0)).
  { intros B. rewrite while_eq. reflexivity. }
  split.
  - unfold egcd. rewrite H. reflexivity.
  - intros B. split; [| split; [| split]].
    + unfold egcd. rewrite H. reflexivity.
    + reflexivity.
    + split; [constructor | reflexivity].
    + apply H.
Qed.

(** C8. The known vectors: [egcd 1 1 = (1, 0, 1)], [egcd 12 8 = (4, 1, -1)],
    [egcd 23894798501898 23948178468116 = (2, 2437250447493, -2431817869532)]
    and [egcd (2^50) (3^50) = (1, -260414429242905345185687,
    408415383037561)]. *)
Theorem egcd_known_vectors :
  egcd 1 1 = Some (1, 0, 1) /\
  egcd 12 8 = Some (4, 1, -1) /\
  egcd 23894798501898 23948178468116
    = Some (2, 2437250447493, -2431817869532) /\
  egcd (2 ^ 50) (3 ^ 50)
    = Some (1, -260414429242905345185687, 408415383037561).
Proof. repeat split; vm_compute; reflexivity. Qed.

(** C9. With [B] and [N] the arguments, [x0*B + y0*N = b] and
    [x1*B + y1*N = n] hold on entry to every pass of the loop: the
    initialisation establishes them, every pass through the body preserves
    them, and so they hold in every frame the loop reaches. *)
Theorem egcd_loop_invariant (B N : Z) :
  bezout B N (init B N) /\
  (forall s s' : frame,
     bezout B N s -> guard s = true -> body s = Some s' -> bezout B N s') /\
  (forall (k : nat) (t : frame), reaches (init B N) k t -> bezout B N t).
Proof.
  split; [apply bezout_init |]. split; [apply bezout_body |].
  intros k t Hr. induction Hr as [| k t t' _ IH Hg Hb].
  - apply bezout_init.
  - exact (bezout_body B N t t' IH Hg Hb).
Qed.

Lemma egcd_loop_invariant_witness :
  bezout 12 8 (init 12 8) /\
  bezout 12 8 {| b := 8; n := 4; x0 := 0; x1 := 1; y0 := 1; y1 := -1 |}.
Proof.
  split.
  - exact (proj1 (egcd_loop_invariant 12 8)).
  - apply (proj1 (proj2 (egcd_loop_invariant 12 8)) (init 12 8)).
    + exact (proj1 (egcd_loop_invariant 12 8)).
    + reflexivity.
    + reflexivity.
Defined.

(** C10. For every integer [N] other than zero, [egcd 0 N = (N, 0, 1)]: the
    loop makes exactly one pass, with quotient 0 and remainder 0. *)
Theorem egcd_zero_left (N : Z) (HN : N <> 0) :
  egcd 0 N = Some (N, 0, 1) /\
  Py.floordiv 0 N = Some 0 /\
  Py.mod_ 0 N = Some 0 /\
  exits (init 0 N) 1
        {| b := N; n := 0; x0 := 0; x1 := 1; y0 := 1; y1 := 0 |} /\
  (forall (k : nat) (t : frame), exits (init 0 N) k t -> k = 1%nat).
Proof.
  assert (Hg : guard (init 0 N) = true) by (apply guard_true; exact HN).
  assert (Hb : body (init 0 N)
               = Some {| b := N; n := 0; x0 := 0; x1 := 1; y0 := 1; y1 := 0 |}).
  { rewrite (body_some _ Hg). cbn [b n x0 x1 y0 y1 init].
    rewrite Z.mod_0_l by exact HN. rewrite Z.div_0_l by exact HN.
    reflexivity. }
  assert (Hx : exits (init 0 N) 1
                 {| b := N; n := 0; x0 := 0; x1 := 1; y0 := 1; y1 := 0 |}).
  { split; [| reflexivity].
    apply reaches_pass with (t := init 0 N); [constructor | exact Hg | exact Hb]. }
  apply Z.eqb_neq in HN.
  split; [| split; [| split; [| split]]].
  - unfold egcd. rewrite while_eq, Hg, Hb. cbn [Py.bind].
    rewrite while_eq. reflexivity.
  - unfold Py.floordiv. rewrite HN. reflexivity.
  - unfold Py.mod_. rewrite HN. reflexivity.
  - apply Hx.
  - intros k t Ht. exact (proj1 (exits_unique _ _ _ _ _ Ht Hx)).
Qed.

Lemma egcd_zero_left_witness :
  egcd 0 (-7) = Some (-7, 0, 1) /\
  exits (init 0 (-7)) 1
        {| b := -7; n := 0; x0 := 0; x1 := 1; y0 := 1; y1 := 0 |}.
Proof.
  assert (H : -7 <> 0) by lia.
  split.
  - exact (proj1 (egcd_zero_left (-7) H)).
  - exact (proj1 (proj2 (proj2 (proj2 (egcd_zero_left (-7) H))))).
Defined.

(** C2. For [B] and [N] both non-negative and not both zero, the first
    component returned by [egcd B N] equals, in absolute value, the
    non-negative greatest common divisor of [B] and [N]; and for every [B]
    and [N] in [[0, 200)] it is that greatest common divisor. *)
Theorem egcd_gcd_nonneg :
  (forall B N : Z,
     0 <= B -> 0 <= N -> B <> 0 \/ N <> 0 ->
     exists g a m, egcd B N = Some (g, a, m) /\ Z.abs g = Z.gcd B N) /\
  (forall B N : Z,
     0 <= B < 200 -> 0 <= N < 200 ->
     exists g a m,
       egcd B N = Some (g, a, m) /\ Z.abs g = Z.gcd B N /\ g = Z.gcd B N).
Proof.
  assert (H : forall B N, 0 <= B -> 0 <= N ->
            exists g a m,
              egcd B N = Some (g, a, m) /\ Z.abs g = Z.gcd B N /\
              g = Z.gcd B N).
  { intros B N HB HN.
    destruct (egcd_rule (fun s => nonneg s /\ same_gcd B N s)) with (B := B) (N := N)
      as (k & t & _ & He & [[Hb _] Hg] & Hn).
    - intros s s' [H1 H2] Hgd Hbd. split.
      + exact (nonneg_body s s' H1 Hgd Hbd).
      + exact (same_gcd_body B N s s' H2 Hgd Hbd).
    - split; [split; assumption | reflexivity].
    - exists (b t), (x0 t), (y0 t). split; [exact He |].
      unfold same_gcd in Hg. rewrite Hn, Z.gcd_0_r in Hg. lia. }
  split.
  - intros B N HB HN _. destruct (H B N HB HN) as (g & a & m & He & Ha & _).
    exists g, a, m. split; assumption.
  - intros B N HB HN. apply H; lia.
Qed.

Lemma egcd_gcd_nonneg_witness :
  (exists g a m, egcd 12 8 = Some (g, a, m) /\ Z.abs g = Z.gcd 12 8) /\
  (exists g a m,
     egcd 0 0 = Some (g, a, m) /\ Z.abs g = Z.gcd 0 0 /\ g = Z.gcd 0 0).
Proof.
  split.
  - apply (proj1 egcd_gcd_nonneg 12 8); [lia | lia | left; lia].
  - apply (proj2 egcd_gcd_nonneg 0 0); lia.
Defined.

(** C4, as amended. For all integers [B] and [N], the first component
    returned by [egcd B N] is the greatest common divisor of [B] and [N] in
    magnitude; its sign is the sign of [N] when [N] is not zero; when [N] is
    zero, it is [B] itself, with the sign of [B]. *)
Theorem egcd_magnitude_sign (B N : Z) :
  exists g a m,
    egcd B N = Some (g, a, m) /\
    Z.abs g = Z.gcd B N /\
    Z.sgn g = (if N =? 0 then Z.sgn B else Z.sgn N) /\
    (N = 0 -> g = B).
Proof.
  destruct (egcd_rule (fun s => same_gcd B N s /\ signed B N s)) with (B := B) (N := N)
    as (k & t & _ & He & [Hg Hs] & Hn).
  - intros s s' [H1 H2] Hgd Hbd. split.
    + exact (same_gcd_body B N s s' H1 Hgd Hbd).
    + exact (signed_body B N s s' H2 Hgd Hbd).
  - split; [reflexivity | left; reflexivity].
  - exists (b t), (x0 t), (y0 t). split; [exact He |]. split; [| split].
    + unfold same_gcd in Hg. rewrite Hn, Z.gcd_0_r in Hg. exact Hg.
    + destruct Hs as [-> | (Hnz & Hs & _)].
      * simpl in Hn |- *. subst N. reflexivity.
      * destruct (Z.eqb_spec N 0) as [-> | _]; [| exact Hs].
        simpl in Hs. lia.
    + intros HN. destruct Hs as [-> | (Hnz & Hs & _)].
      * reflexivity.
      * subst N. simpl in Hs. lia.
Qed.

Lemma egcd_magnitude_sign_witness :
  (exists g a m,
     egcd (-3) 5 = Some (g, a, m) /\
     Z.abs g = Z.gcd (-3) 5 /\ Z.sgn g = Z.sgn 5) /\
  (exists g a m,
     egcd (-6) 0 = Some (g, a, m) /\
     Z.abs g = Z.gcd (-6) 0 /\ Z.sgn g = Z.sgn (-6) /\ g = -6).
Proof.
  split.
  - destruct (egcd_magnitude_sign (-3) 5) as (g & a & m & He & Ha & Hs & _).
    exists g, a, m. split; [exact He |]. split; [exact Ha | exact Hs].
  - destruct (egcd_magnitude_sign (-6) 0) as (g & a & m & He & Ha & Hs & Hz).
    exists g, a, m. split; [exact He |]. split; [exact Ha |].
    split; [exact Hs | apply Hz; reflexivity].
Defined.

(** C4, as stated, fails: [egcd 1 (-1)] returns [-1], which has the
    magnitude of the greatest common divisor but not the sign of the first
    argument. *)
Lemma egcd_sign_not_of_b :
  exists g a m,
    egcd 1 (-1) = Some (g, a, m) /\
    Z.abs g = Z.gcd 1 (-1) /\
    Z.sgn g <> Z.sgn 1.
Proof.
  exists (-1), 0, 1. split; [vm_compute; reflexivity |].
  split; [reflexivity | discriminate].
Qed.

(** C5. The loop of [egcd] terminates on every pair of integers: a pass
    through the body replaces [n] by the remainder [b mod n], which is
    smaller in absolute value and not below zero in absolute value; the order
    this defines is well founded, and so the loop is left after finitely many
    passes, at most [|N|], with a result. *)
Theorem egcd_terminates :
  well_founded shrinks /\
  (forall s : frame,
     guard s = true ->
     exists s', body s = Some s' /\ n s' = b s mod n s /\
                0 <= Z.abs (n s') < Z.abs (n s) /\ shrinks s' s) /\
  (forall B N : Z,
     exists (k : nat) (t : frame),
       exits (init B N) k t /\ Z.of_nat k <= Z.abs N /\
       while (init B N) = Some t /\ egcd B N = Some (ret t)).
Proof.
  split; [exact shrinks_wf |]. split.
  - intros s Hg. pose proof (body_some s Hg) as Hb.
    pose proof (body_decreases s _ Hg Hb) as Hd.
    eexists. split; [exact Hb |]. split; [reflexivity |].
    split; [| exact Hd]. unfold shrinks, abs_lt in Hd. lia.
  - intros B N.
    destruct (while_rule (fun _ => True)) with (s := init B N)
      as (k & t & Hx & Hw & _ & Hk); [auto | exact I |].
    exists k, t. split; [exact Hx |]. split; [exact Hk |].
    split; [exact Hw |]. unfold egcd. rewrite Hw. reflexivity.
Qed.

Lemma egcd_terminates_witness :
  exists s', body (init 12 8) = Some s' /\ n s' = 12 mod 8 /\
             0 <= Z.abs (n s') < Z.abs 8 /\ shrinks s' (init 12 8).
Proof.
  apply (proj1 (proj2 egcd_terminates) (init 12 8)). reflexivity.
Defined.

(** C7. [egcd] raises no error on any pair of integers: under the guard
    [n <> 0] both [b // n] and [b % n] return a value, so a pass through the
    body never fails, and [egcd] returns a triple on every input. *)
Theorem egcd_total :
  (forall B N : Z, exists g a m, egcd B N = Some (g, a, m)) /\
  (forall s : frame,
     guard s = true ->
     exists q r s',
       Py.floordiv (b s) (n s) = Some q /\ Py.mod_ (b s) (n s) = Some r /\
       body s = Some s') /\
  (forall s : frame, body s = None -> guard s = false).
Proof.
  split; [| split].
  - intros B N. destruct (egcd_identity B N) as (g & a & m & He & _).
    exists g, a, m. exact He.
  - intros s Hg. pose proof (body_some s Hg) as Hb.
    apply guard_true, Z.eqb_neq in Hg.
    exists (b s / n s), (b s mod n s). eexists.
    unfold Py.floordiv, Py.mod_. rewrite Hg.
    split; [reflexivity |]. split; [reflexivity | exact Hb].
  - intros s Hb. destruct (guard s) eqn:Hg; [| reflexivity].
    rewrite (body_some s Hg) in Hb. discriminate.
Qed.

Lemma egcd_total_witness :
  exists q r s',
    Py.floordiv 12 8 = Some q /\ Py.mod_ 12 8 = Some r /\
    body (init 12 8) = Some s'.
Proof.
  apply (proj1 (proj2 egcd_total) (init 12 8)). reflexivity.
Defined.

(** * Further properties of [egcd] *)

(** ** Loops on related frames

    A transformation of frames that keeps the guard and commutes with the
    body commutes with the whole loop. *)
Section Map.

Variable f : frame -> frame.
Hypothesis f_guard : forall s, guard (f s) = guard s.
Hypothesis f_body :
  forall s s', guard s = true -> body s = Some s' -> body (f s) = Some (f s').

Lemma while_map (s : frame) : while (f s) = option_map f (while s).
Proof.
  induction s as [s IH] using (well_founded_induction shrinks_wf).
  rewrite (while_eq (f s)), (while_eq s), f_guard.
  destruct (guard s) eqn:Hg; [| reflexivity].
  pose proof (body_some s Hg) as Hb.
  rewrite (f_body _ _ Hg Hb), Hb. cbn [Py.bind].
  apply IH. exact (body_decreases _ _ Hg Hb).
Qed.

End Map.

Lemma frame_eq (s t : frame) :
  b s = b t -> n s = n t -> x0 s = x0 t -> x1 s = x1 t ->
  y0 s = y0 t -> y1 s = y1 t -> s = t.
Proof.
  destruct s, t; cbn [b n x0 x1 y0 y1]. intros; subst; reflexivity.
Qed.

Lemma while_recombine (p q r t : Z) (s : frame) :
  while (recombine p q r t s) = option_map (recombine p q r t) (while s).
Proof.
  apply while_map.
  - reflexivity.
  - intros u u' Hg Hb. rewrite (body_some u Hg) in Hb. injection Hb as <-.
    assert (Hg' : guard (recombine p q r t u) = true) by exact Hg.
    rewrite (body_some _ Hg'). f_equal.
    apply frame_eq; cbn [b n x0 x1 y0 y1 recombine]; ring.
Qed.

Lemma while_scale (c : Z) (s : frame) :
  c <> 0 -> while (scale c s) = option_map (scale c) (while s).
Proof.
  intros Hc. apply while_map.
  - intros u. unfold guard, scale; cbn [n].
    destruct (Z.eqb_spec (n u) 0) as [-> | Hn].
    + rewrite Z.mul_0_r. reflexivity.
    + destruct (Z.eqb_spec (c * n u) 0) as [Hz | _]; [| reflexivity].
      apply Z.mul_eq_0 in Hz. tauto.
  - intros u u' Hg Hb. rewrite (body_some u Hg) in Hb. injection Hb as <-.
    assert (Hn : n u <> 0) by (apply guard_true; exact Hg).
    assert (Hg' : guard (scale c u) = true).
    { apply guard_true. cbn [n scale]. intros Hz.
      apply Z.mul_eq_0 in Hz. tauto. }
    rewrite (body_some _ Hg'). f_equal.
    pose proof (Z.div_mul_cancel_l (b u) (n u) c Hn Hc) as Hq.
    pose proof (Z.mul_mod_distr_l (b u) (n u) c Hn Hc) as Hr.
    apply frame_eq; cbn [b n x0 x1 y0 y1 scale];
      rewrite ?Hq, ?Hr; reflexivity.
Qed.

(** The first pass, and what the rest of the loop computes from there. *)
Lemma egcd_unroll (B N : Z) :
  N <> 0 ->
  exists g a m,
    egcd N (B mod N) = Some (g, a, m) /\
    egcd B N = Some (g, m, a - (B / N) * m).
Proof.
  intros HN.
  assert (Hg : guard (init B N) = true) by (apply guard_true; exact HN).
  destruct (while_rule (fun _ => True)) with (s := init N (B mod N))
    as (k & t & _ & Hw & _); [auto | exact I |].
  exists (b t), (x0 t), (y0 t). split.
  - unfold egcd. rewrite Hw. reflexivity.
  - unfold egcd. rewrite while_eq, Hg, (body_some _ Hg). cbn [Py.bind].
    replace {| b := n (init B N); n := b (init B N) mod n (init B N);
               x0 := x1 (init B N);
               x1 := x0 (init B N) - b (init B N) / n (init B N) * x1 (init B N);
               y0 := y1 (init B N);
               y1 := y0 (init B N) - b (init B N) / n (init B N) * y1 (init B N) |}
      with (recombine 0 1 1 (- (B / N)) (init N (B mod N)))
      by (apply frame_eq; cbn [b n x0 x1 y0 y1 recombine init]; ring).
    rewrite while_recombine, Hw. cbn [option_map Py.bind].
    unfold ret, recombine; cbn [b n x0 x1 y0 y1].
    apply f_equal. apply f_equal2; [apply f_equal2; [reflexivity |] |]; ring.
Qed.

Lemma egcd_right_zero (B : Z) : egcd B 0 = Some (B, 1, 0).
Proof. unfold egcd. rewrite while_eq. reflexivity. Qed.

(** X1. Recursive reading of the loop: for [N] other than zero, if
    [egcd N (B mod N)] returns [(g, a, m)], then [egcd B N] returns
    [(g, m, a - (B / N) * m)]. *)
Theorem egcd_recursion (B N : Z) (HN : N <> 0) :
  exists g a m,
    egcd N (B mod N) = Some (g, a, m) /\
    egcd B N = Some (g, m, a - (B / N) * m).
Proof. exact (egcd_unroll B N HN). Qed.

Lemma egcd_recursion_witness :
  exists g a m,
    egcd (-8) (12 mod -8) = Some (g, a, m) /\
    egcd 12 (-8) = Some (g, m, a - (12 / -8) * m).
Proof.
  assert (H : -8 <> 0) by lia.
  exact (egcd_recursion 12 (-8) H).
Defined.

(** X2. When [B] lies between zero and [N] ([0 <= B < N] or [N < B <= 0]),
    the first pass only exchanges the arguments: [egcd B N] is [egcd N B]
    with the two coefficients exchanged. *)
Theorem egcd_swap (B N : Z) (HBN : 0 <= B < N \/ N < B <= 0) :
  exists g a m,
    egcd N B = Some (g, a, m) /\ egcd B N = Some (g, m, a).
Proof.
  assert (HN : N <> 0) by lia.
  destruct (egcd_unroll B N HN) as (g & a & m & H1 & H2).
  rewrite (proj2 (Z.mod_small_iff B N HN) HBN) in H1.
  rewrite (proj2 (Z.div_small_iff B N HN) HBN) in H2.
  exists g, a, m. split; [exact H1 |].
  rewrite H2. apply f_equal. apply f_equal2; [reflexivity | ring].
Qed.

Lemma egcd_swap_witness :
  exists g a m, egcd 12 8 = Some (g, a, m) /\ egcd 8 12 = Some (g, m, a).
Proof.
  assert (H : 0 <= 8 < 12 \/ 12 < 8 <= 0) by (left; lia).
  exact (egcd_swap 8 12 H).
Defined.

(** X3. Adding a multiple of [N] to the first argument keeps [g] and the
    coefficient of the first argument: for [N] other than zero, if
    [egcd B N] returns [(g, a, m)], then [egcd (B + c*N) N] returns
    [(g, a, m - c*a)]. *)
Theorem egcd_shift (B N c : Z) (HN : N <> 0) :
  exists g a m,
    egcd B N = Some (g, a, m) /\
    egcd (B + c * N) N = Some (g, a, m - c * a).
Proof.
  destruct (egcd_unroll B N HN) as (g & a & m & H1 & H2).
  destruct (egcd_unroll (B + c * N) N HN) as (g' & a' & m' & H1' & H2').
  rewrite Z.mod_add in H1' by exact HN. rewrite H1 in H1'.
  injection H1' as <- <- <-.
  rewrite Z.div_add in H2' by exact HN.
  exists g, m, (a - B / N * m). split; [exact H2 |].
  rewrite H2'. apply f_equal. apply f_equal2; [reflexivity | ring].
Qed.

Lemma egcd_shift_witness :
  exists g a m,
    egcd 12 8 = Some (g, a, m) /\
    egcd (12 + (-5) * 8) 8 = Some (g, a, m - (-5) * a).
Proof.
  assert (H : 8 <> 0) by lia.
  exact (egcd_shift 12 8 (-5) H).
Defined.

(** X4. When [N], other than zero, divides [B], [egcd B N] returns
    [(N, 0, 1)]: the divisor itself, negative if [N] is. *)
Theorem egcd_of_multiple (B N : Z) (HN : N <> 0) (Hd : (N | B)) :
  egcd B N = Some (N, 0, 1).
Proof.
  destruct (egcd_unroll B N HN) as (g & a & m & H1 & H2).
  rewrite (proj2 (Z.mod_divide B N HN) Hd), egcd_right_zero in H1.
  injection H1 as <- <- <-.
  rewrite H2. apply f_equal. apply f_equal2; [reflexivity | ring].
Qed.

Lemma egcd_of_multiple_witness : egcd 12 (-4) = Some (-4, 0, 1).
Proof.
  assert (H : -4 <> 0) by lia.
  assert (Hd : (-4 | 12)) by (exists (-3); reflexivity).
  exact (egcd_of_multiple 12 (-4) H Hd).
Defined.

(** X5. A common factor [c], other than zero, of the two arguments goes
    into [g] and leaves the coefficients alone: if [egcd B N] returns
    [(g, a, m)], then [egcd (c*B) (c*N)] returns [(c*g, a, m)]. *)
Theorem egcd_scale (B N c : Z) (Hc : c <> 0) :
  exists g a m,
    egcd B N = Some (g, a, m) /\
    egcd (c * B) (c * N) = Some (c * g, a, m).
Proof.
  destruct (while_rule (fun _ => True)) with (s := init B N)
    as (k & t & _ & Hw & _); [auto | exact I |].
  exists (b t), (x0 t), (y0 t). split.
  - unfold egcd. rewrite Hw. reflexivity.
  - unfold egcd.
    change (init (c * B) (c * N)) with (scale c (init B N)).
    rewrite (while_scale c _ Hc), Hw. reflexivity.
Qed.

Lemma egcd_scale_witness :
  exists g a m,
    egcd 12 8 = Some (g, a, m) /\
    egcd (-3 * 12) (-3 * 8) = Some (-3 * g, a, m).
Proof.
  assert (H : -3 <> 0) by lia.
  exact (egcd_scale 12 8 (-3) H).
Defined.

(** ** What the frame holds when the loop is left *)

Lemma unimodular_body (s s' : frame) :
  unimodular s -> guard s = true -> body s = Some s' -> unimodular s'.
Proof.
  unfold unimodular. intros H Hg Hb.
  rewrite (body_some s Hg) in Hb. injection Hb as <-.
  cbn [b n x0 x1 y0 y1].
  replace (x1 s * (y0 s - b s / n s * y1 s) - (x0 s - b s / n s * x1 s) * y1 s)
    with (- (x0 s * y1 s - x1 s * y0 s)) by ring.
  lia.
Qed.

Lemma egcd_exit (B N : Z) :
  exists k t,
    exits (init B N) k t /\ egcd B N = Some (b t, x0 t, y0 t) /\ n t = 0 /\
    bezout B N t /\ same_gcd B N t /\ signed B N t /\ unimodular t.
Proof.
  destruct (egcd_rule (fun s => bezout B N s /\ same_gcd B N s /\
                                 signed B N s /\ unimodular s))
    with (B := B) (N := N) as (k & t & Hx & He & (H1 & H2 & H3 & H4) & Hn).
  - intros s s' (H1 & H2 & H3 & H4) Hg Hb. split; [| split; [| split]].
    + exact (bezout_body B N s s' H1 Hg Hb).
    + exact (same_gcd_body B N s s' H2 Hg Hb).
    + exact (signed_body B N s s' H3 Hg Hb).
    + exact (unimodular_body s s' H4 Hg Hb).
  - split; [| split; [| split]].
    + apply bezout_init.
    + reflexivity.
    + left; reflexivity.
    + left; reflexivity.
  - exists k, t. tauto.
Qed.

(** X6. The two coefficients returned by [egcd] are coprime, on every pair
    of integers. *)
Theorem egcd_coefficients_coprime (B N : Z) :
  exists g a m, egcd B N = Some (g, a, m) /\ Z.gcd a m = 1.
Proof.
  destruct (egcd_exit B N) as (k & t & _ & He & _ & _ & _ & _ & Hu).
  exists (b t), (x0 t), (y0 t). split; [exact He |].
  apply Z.bezout_1_gcd. destruct Hu as [Hu | Hu].
  - exists (y1 t), (- x1 t). lia.
  - exists (- y1 t), (x1 t). lia.
Qed.

(** X7. Modular inverse: for a modulus [N] above 1 and [B] coprime to it,
    [egcd B N] returns [g = 1] and a coefficient [a] with
    [a * B = 1 (mod N)]; so [a mod N] is the inverse of [B] modulo [N]. *)
Theorem egcd_modular_inverse (B N : Z) (HN : 1 < N) (Hc : Z.gcd B N = 1) :
  exists a m,
    egcd B N = Some (1, a, m) /\
    (a * B) mod N = 1 /\ ((a mod N) * B) mod N = 1.
Proof.
  destruct (egcd_exit B N) as (k & t & _ & He & Hn & [Hb _] & Hg & Hs & _).
  unfold same_gcd in Hg. rewrite Hn, Z.gcd_0_r, Hc in Hg.
  assert (H1 : b t = 1).
  { destruct Hs as [-> | (_ & Hs & _)].
    - simpl in Hn. lia.
    - lia. }
  rewrite H1 in He, Hb.
  assert (Hm : (x0 t * B) mod N = 1).
  { replace (x0 t * B) with (1 + (- y0 t) * N) by lia.
    rewrite Z.mod_add by lia. apply Z.mod_small. lia. }
  exists (x0 t), (y0 t). split; [exact He |]. split; [exact Hm |].
  rewrite Z.mul_mod_idemp_l by lia. exact Hm.
Qed.

Lemma egcd_modular_inverse_witness :
  exists a m,
    egcd 3 7 = Some (1, a, m) /\
    (a * 3) mod 7 = 1 /\ ((a mod 7) * 3) mod 7 = 1.
Proof.
  assert (H : 1 < 7) by lia.
  exact (egcd_modular_inverse 3 7 H eq_refl).
Defined.

(** X8. On every pair of integers, the [g] returned by [egcd B N] divides
    [B] and [N], every common divisor of [B] and [N] divides [g], and [g]
    is zero only when [B] and [N] both are. *)
Theorem egcd_greatest_divisor (B N : Z) :
  exists g a m,
    egcd B N = Some (g, a, m) /\
    (g | B) /\ (g | N) /\
    (forall d : Z, (d | B) -> (d | N) -> (d | g)) /\
    (g = 0 <-> B = 0 /\ N = 0).
Proof.
  destruct (egcd_exit B N) as (k & t & _ & He & Hn & _ & Hg & _ & _).
  unfold same_gcd in Hg. rewrite Hn, Z.gcd_0_r in Hg.
  exists (b t), (x0 t), (y0 t). split; [exact He |]. repeat apply conj.
  - apply Z.divide_abs_l. rewrite Hg. apply Z.gcd_divide_l.
  - apply Z.divide_abs_l. rewrite Hg. apply Z.gcd_divide_r.
  - intros d HB HN. apply Z.divide_abs_r. rewrite Hg.
    apply Z.gcd_greatest; assumption.
  - intros H0. apply Z.gcd_eq_0. lia.
  - intros H0. apply Z.gcd_eq_0 in H0. lia.
Qed.

Lemma egcd_greatest_divisor_witness :
  exists g a m,
    egcd (-12) 18 = Some (g, a, m) /\
    (g | -12) /\ (g | 18) /\ (3 | g).
Proof.
  destruct (egcd_greatest_divisor (-12) 18) as (g & a & m & He & H1 & H2 & H3 & _).
  exists g, a, m. repeat apply conj; try assumption.
  apply H3; [exists (-4) | exists 6]; reflexivity.
Defined.

(** ** The number of passes *)

Lemma reaches_front_inv (s t : frame) (k : nat) :
  reaches s (S k) t ->
  exists s', guard s = true /\ body s = Some s' /\ reaches s' k t.
Proof.
  revert t. induction k as [| k IH]; intros t Hr;
    inversion Hr as [| k' m m' Hm Hg Hb]; subst.
  - inversion Hm; subst. exists t. repeat split; try assumption. constructor.
  - destruct (IH m Hm) as (s' & Hgs & Hbs & Hr').
    exists s'. repeat split; try assumption.
    exact (reaches_pass s' k m t Hr' Hg Hb).
Qed.

Lemma first_pass_ordered (B N : Z) (s : frame) :
  guard (init B N) = true -> body (init B N) = Some s ->
  ordered s /\ b s = N.
Proof.
  intros Hg Hb. rewrite (body_some _ Hg) in Hb. injection Hb as <-.
  apply guard_true in Hg. unfold ordered; cbn [b n init] in *.
  split; [| reflexivity].
  destruct (Z.lt_total N 0) as [Hlt | [Heq | Hgt]]; [| contradiction |].
  - right. pose proof (Z.mod_neg_bound B N Hlt). lia.
  - left. pose proof (Z.mod_pos_bound B N Hgt). lia.
Qed.

Lemma ordered_body (s s' : frame) :
  ordered s -> guard s = true -> body s = Some s' ->
  ordered s' /\ b s' = n s /\ 2 * Z.abs (n s') < Z.abs (b s) /\ 1 <= b s / n s.
Proof.
  intros Ho Hg Hb. rewrite (body_some s Hg) in Hb. injection Hb as <-.
  apply guard_true in Hg. unfold ordered in *; cbn [b n].
  pose proof (Z.div_mod (b s) (n s) Hg) as Hdm.
  destruct Ho as [Ho | Ho].
  - pose proof (Z.mod_pos_bound (b s) (n s) ltac:(lia)) as Hr.
    assert (Hq : 1 <= b s / n s) by (apply Z.div_le_lower_bound; lia).
    repeat split; try lia. nia.
  - pose proof (Z.mod_neg_bound (b s) (n s) ltac:(lia)) as Hr.
    assert (Hq : 1 <= b s / n s).
    { destruct (Z.le_gt_cases 1 (b s / n s)) as [H | H]; [exact H | nia]. }
    repeat split; try lia. nia.
Qed.

Lemma ordered_passes (k : nat) :
  forall s t, ordered s -> exits s k t ->
              Z.of_nat k <= 2 * Z.log2 (Z.abs (b s)).
Proof.
  induction k as [k IH] using lt_wf_ind. intros s t Ho [Hr Ht].
  destruct k as [| [| k]].
  - pose proof (Z.log2_nonneg (Z.abs (b s))). lia.
  - destruct (reaches_front_inv _ _ _ Hr) as (s' & Hg & _ & _).
    apply guard_true in Hg.
    pose proof (Z.log2_le_mono 2 (Z.abs (b s))) as Hl.
    unfold ordered in Ho. change (Z.log2 2) with 1 in Hl. lia.
  - destruct (reaches_front_inv _ _ _ Hr) as (s1 & Hg & Hb & Hr1).
    destruct (reaches_front_inv _ _ _ Hr1) as (s2 & Hg1 & Hb1 & Hr2).
    destruct (ordered_body _ _ Ho Hg Hb) as (Ho1 & _ & Hh & _).
    destruct (ordered_body _ _ Ho1 Hg1 Hb1) as (Ho2 & Hb2 & _ & _).
    assert (Hk : Z.of_nat k <= 2 * Z.log2 (Z.abs (b s2))).
    { apply (IH k ltac:(lia) s2 t Ho2). split; assumption. }
    apply guard_true in Hg1. rewrite Hb2 in Hk.
    pose proof (Z.log2_double (Z.abs (n s1)) ltac:(lia)) as Hd.
    pose proof (Z.log2_le_mono (2 * Z.abs (n s1)) (Z.abs (b s)) ltac:(lia)).
    lia.
Qed.

(** X9. The loop of [egcd] is left after at most [2 * log2 |N| + 1] passes
    through its body, on every pair of integers. *)
Theorem egcd_passes_logarithmic (B N : Z) :
  exists (k : nat) (t : frame),
    exits (init B N) k t /\ egcd B N = Some (ret t) /\
    Z.of_nat k <= 2 * Z.log2 (Z.abs N) + 1.
Proof.
  destruct (while_rule (fun _ => True)) with (s := init B N)
    as (k & t & Hx & Hw & _); [auto | exact I |].
  exists k, t. split; [exact Hx |]. split.
  { unfold egcd. rewrite Hw. reflexivity. }
  destruct k as [| k].
  - pose proof (Z.log2_nonneg (Z.abs N)). lia.
  - destruct Hx as [Hr Ht].
    destruct (reaches_front_inv _ _ _ Hr) as (s1 & Hg & Hb & Hr1).
    destruct (first_pass_ordered B N s1 Hg Hb) as [Ho HbN].
    pose proof (ordered_passes k s1 t Ho (conj Hr1 Ht)) as Hk.
    rewrite HbN in Hk. lia.
Qed.

(** ** The size of the coefficients *)

Lemma abs_alternating (u v q : Z) :
  u * v <= 0 -> 0 <= q -> Z.abs (u - q * v) = Z.abs u + q * Z.abs v.
Proof.
  intros Huv Hq.
  destruct (Z.abs_spec u) as [[? ->] | [? ->]];
    destruct (Z.abs_spec v) as [[? ->] | [? ->]];
    destruct (Z.abs_spec (u - q * v)) as [[? ->] | [? ->]]; nia.
Qed.

Lemma abs_remainder (bb nn : Z) :
  0 <= nn < bb \/ bb < nn <= 0 -> nn <> 0 ->
  1 <= bb / nn /\
  Z.abs (bb mod nn) = Z.abs bb - (bb / nn) * Z.abs nn.
Proof.
  intros Ho Hn. pose proof (Z.div_mod bb nn Hn) as Hdm.
  destruct Ho as [Ho | Ho].
  - pose proof (Z.mod_pos_bound bb nn ltac:(lia)) as Hr.
    assert (Hq : 1 <= bb / nn) by (apply Z.div_le_lower_bound; lia).
    split; [exact Hq |].
    rewrite (Z.abs_eq (bb mod nn)), (Z.abs_eq bb), (Z.abs_eq nn) by lia. lia.
  - pose proof (Z.mod_neg_bound bb nn ltac:(lia)) as Hr.
    assert (Hq : 1 <= bb / nn).
    { destruct (Z.le_gt_cases 1 (bb / nn)) as [H | H]; [exact H | nia]. }
    split; [exact Hq |].
    rewrite (Z.abs_neq (bb mod nn)), (Z.abs_neq bb), (Z.abs_neq nn) by lia.
    lia.
Qed.

Lemma carried_body (T u0 u1 : Z) (s s' : frame) :
  ordered s -> guard s = true -> body s = Some s' ->
  carried T u0 u1 s ->
  carried T u1 (u0 - b s / n s * u1) s' /\
  Z.abs u1 <= Z.abs (u0 - b s / n s * u1).
Proof.
  intros Ho Hg Hb [Ha Hs]. rewrite (body_some s Hg) in Hb. injection Hb as <-.
  apply guard_true in Hg.
  destruct (abs_remainder (b s) (n s) Ho Hg) as [Hq Hr].
  unfold carried; cbn [b n].
  rewrite (abs_alternating u0 u1 (b s / n s) Ha ltac:(lia)), Hr.
  pose proof (Z.abs_nonneg u0). pose proof (Z.abs_nonneg u1).
  repeat split; nia.
Qed.

Lemma bounded_body (B N : Z) (s s' : frame) :
  bounded B N s -> guard s = true -> body s = Some s' -> bounded B N s'.
Proof.
  intros [-> | (Ho & [Hx Hxx] & Hy)] Hg Hb; right.
  - (* the first pass *)
    destruct (first_pass_ordered B N s' Hg Hb) as [Ho _].
    assert (Hs : Some s' = Some {| b := N; n := B mod N; x0 := 0; x1 := 1;
                                   y0 := 1; y1 := - (B / N) |}).
    { rewrite <- Hb, (body_some _ Hg). f_equal.
      apply frame_eq; cbn [b n x0 x1 y0 y1 init]; ring. }
    injection Hs as ->.
    apply guard_true in Hg. cbn [b n x0 x1 y0 y1 init] in *.
    pose proof (Z.div_mod B N Hg) as Hdm.
    unfold ordered in Ho; cbn [b n] in Ho.
    split; [exact Ho |]. unfold carried; cbn [b n x0 x1 y0 y1].
    change (Z.abs 0) with 0. change (Z.abs 1) with 1.
    split; [split; [split |]; lia |].
    destruct (Z.le_gt_cases 0 (B / N)) as [Hq | Hq].
    + left. split; [split |]; [lia | nia |].
      destruct (Z.eq_dec (B / N) 0) as [Hz | Hz]; [| lia].
      right. rewrite Hz in Hdm. lia.
    + right. repeat split; lia.
  - (* a later pass *)
    destruct (ordered_body s s' Ho Hg Hb) as (Ho' & _ & _ & Hq).
    destruct (carried_body _ _ _ s s' Ho Hg Hb Hx) as [Hx' Hxx'].
    pose proof (body_some s Hg) as Hb'. rewrite Hb in Hb'.
    injection Hb' as ->. cbn [b n x0 x1 y0 y1] in *.
    split; [exact Ho' |]. split; [split; assumption |].
    left. destruct Hy as [[Hy _] | (Hq1 & HbN & HnR & Hy0 & Hy1)].
    + pose proof (body_some s Hg) as Hb'.
      destruct (carried_body _ _ _ s _ Ho Hg Hb' Hy) as [Hy' Hyy'].
      split; [exact Hy' | left; exact Hyy'].
    + apply guard_true in Hg.
      destruct (abs_remainder (b s) (n s) Ho Hg) as [_ Hr].
      assert (HN : N <> 0) by (unfold ordered in Ho; lia).
      pose proof (Z.div_mod B N HN) as Hdm.
      unfold carried; cbn [b n]. rewrite Hy0, Hy1, Hr.
      unfold ordered in Ho. rewrite HbN, HnR in *.
      set (q1 := B / N) in *. set (q2 := N / (B mod N)) in *.
      set (r := B mod N) in *.
      assert (Ha : Z.abs (1 - q2 * - q1) = -1 - q2 * q1) by nia.
      rewrite Ha, Z.abs_opp, (Z.abs_neq q1) by lia.
      split; [split |]; [nia | nia |].
      destruct (Z.eq_dec q2 1) as [H1 | H1].
      * right; left. intros Hz. rewrite Hz, H1 in Hr. lia.
      * left. nia.
Qed.

(** X10. The coefficients stay small: for [N] other than zero,
    [|a| * |g| <= |N|], and, when [B] is not zero either,
    [|m| * |g| <= |B|], for [(g, a, m)] returned by [egcd B N]. *)
Theorem egcd_coefficients_bounded (B N : Z) (HN : N <> 0) :
  exists g a m,
    egcd B N = Some (g, a, m) /\
    Z.abs a * Z.abs g <= Z.abs N /\
    (B <> 0 -> Z.abs m * Z.abs g <= Z.abs B).
Proof.
  destruct (egcd_rule (bounded B N) (bounded_body B N) B N)
    as (k & t & _ & He & Hb & Hn); [left; reflexivity |].
  exists (b t), (x0 t), (y0 t). split; [exact He |].
  destruct Hb as [-> | (Ho & [[_ Hx] Hxx] & Hy)]; [simpl in Hn; contradiction |].
  rewrite Hn in Hx. split; [nia |]. intros HB.
  destruct Hy as [[[_ Hy] Hyy] | (Hq1 & HbN & HnR & Hy0 & _)].
  - rewrite Hn in Hy. destruct Hyy as [Hyy | [Hyy | Hyy]]; [nia | | ]; contradiction.
  - pose proof (Z.div_mod B N HN) as Hdm.
    rewrite Hy0, HbN. rewrite <- HnR, Hn in Hdm. nia.
Qed.

Lemma egcd_coefficients_bounded_witness :
  exists g a m,
    egcd (-7) 12 = Some (g, a, m) /\
    Z.abs a * Z.abs g <= Z.abs 12 /\
    Z.abs m * Z.abs g <= Z.abs (-7).
Proof.
  assert (H : 12 <> 0) by lia.
  destruct (egcd_coefficients_bounded (-7) 12 H) as (g & a & m & He & Ha & Hm).
  exists g, a, m. split; [exact He |]. split; [exact Ha |].
  apply Hm. lia.
Defined.
